(** * Jump-to-definition overlay of the browser extension

    A shallow embedding of [chromeext/annotations.js]: the request chain
    ([mainCall], [getAuthToken], [authHandler], [checkLatestCommit],
    [getAnnotations]), the annotation index built by
    [getSourcegraphRefLinks], and the character sweep of [traverseDOM] and
    [next] that inserts the anchors.

    JavaScript strings are lists of UTF-16 code units ([Z]); the two
    JavaScript objects used as dictionaries are finite maps keyed by byte
    offset; the two script-wide flags [consumingSpan] and [annotating] are
    threaded explicitly through the sweep. *)

From Stdlib Require Import ZArith List String Ascii Bool Lia.
From stdpp Require Import base option gmap list.
Import ListNotations.

Local Open Scope Z_scope.

(* ------------------------------------------------------------------ *)
(** ** Strings *)

Module Js.

(** A JavaScript string element (one UTF-16 code unit). *)
Definition char := Z.
Definition jsstring := list char.

(** A string literal of the script, as code units. *)
Definition lit (s : string) : jsstring :=
  List.map (fun a => Z.of_N (N_of_ascii a)) (list_ascii_of_string s).

Definition LT : char := 60.      (* "<" *)
Definition GT : char := 62.      (* ">" *)
Definition SPACE : char := 32.   (* " " *)
Definition NEWLINE : char := 10. (* "\n" *)
Definition DOT : char := 46.     (* "." *)

(** [s.split(sep)] for a one-character separator: never empty. *)
Fixpoint split (sep : char) (s : jsstring) : list jsstring :=
  match s with
  | [] => [[]]
  | c :: rest =>
      if Z.eqb c sep then [] :: split sep rest
      else match split sep rest with
           | [] => [[c]]
           | w :: ws => (c :: w) :: ws
           end
  end.

(** [s.toLowerCase()] on the basic Latin letters.  The other case mappings
    of JavaScript never produce the letters "g" or "o", so the comparison
    with "go" in [mainCall] is decided by this part alone. *)
Definition lowerChar (c : char) : char :=
  if (65 <=? c) && (c <=? 90) then c + 32 else c.

Definition toLowerCase (s : jsstring) : jsstring := List.map lowerChar s.

End Js.

Import Js.

(* ------------------------------------------------------------------ *)
(** ** UTF-8 lengths *)

Module Utf8.

(** Modelled from the spec: [utf8.encode] comes from the utf8.js helper
    library, which is loaded next to the script and is not part of these
    sources.  The design calls its result the UTF-8 encoding, one to four
    bytes per character.  Here: the two halves of a surrogate pair. *)
Definition isHigh (c : char) : bool := (0xD800 <=? c) && (c <=? 0xDBFF).
Definition isLow (c : char) : bool := Z.land c 0xFC00 =? 0xDC00.

(** Modelled from the spec: the code points of a string for the missing
    [utf8.encode]; a surrogate pair is joined into one code point, any
    other code unit stands for itself. *)
Fixpoint ucs2decode (s : jsstring) : list Z :=
  match s with
  | [] => []
  | hi :: rest =>
      if isHigh hi then
        match rest with
        | lo :: rest' =>
            if isLow lo
            then (Z.shiftl (Z.land hi 0x3FF) 10 + Z.land lo 0x3FF + 0x10000)
                   :: ucs2decode rest'
            else hi :: ucs2decode rest
        | [] => [hi]
        end
      else hi :: ucs2decode rest
  end.

(** Modelled from the spec: a continuation byte of the missing
    [utf8.encode]. *)
Definition createByte (cp shift : Z) : Z :=
  Z.lor (Z.land (Z.shiftr cp shift) 0x3F) 0x80.

(** Modelled from the spec: the one to four bytes the missing
    [utf8.encode] writes for a code point.  An unpaired surrogate is
    written on three bytes like the other code points below 0x10000. *)
Definition encodeCodePoint (cp : Z) : list Z :=
  if cp <? 0x80 then [cp]
  else if cp <? 0x800 then
    [Z.lor (Z.land (Z.shiftr cp 6) 0x1F) 0xC0; createByte cp 0]
  else if cp <? 0x10000 then
    [Z.lor (Z.land (Z.shiftr cp 12) 0x0F) 0xE0; createByte cp 6; createByte cp 0]
  else
    [Z.lor (Z.land (Z.shiftr cp 18) 0x07) 0xF0; createByte cp 12;
     createByte cp 6; createByte cp 0].

(** Modelled from the spec: the missing [utf8.encode], the UTF-8 bytes of
    a string. *)
Definition encode (s : jsstring) : list Z :=
  flat_map encodeCodePoint (ucs2decode s).

(** [utf8.encode(s).length] *)
Definition byteLength (s : jsstring) : Z := Z.of_nat (length (encode s)).

End Utf8.

(* ------------------------------------------------------------------ *)
(** ** Annotations and their index *)

(** One record of [data.Annotations].  [URL] is [None] when the record has
    no [URL] property ([undefined]). *)
Record annotation := mkAnn {
  StartByte : Z;
  EndByte : Z;
  URL : option jsstring
}.

#[global] Instance annotation_eq_dec : EqDecision annotation.
Proof. solve_decision. Defined.

(** The two objects [annsByStartByte] and [annsByEndByte]. *)
Record index := mkIndex {
  annsByStartByte : gmap Z annotation;
  annsByEndByte : gmap Z annotation
}.

Definition emptyIndex : index := mkIndex ∅ ∅.

(** The loop of [getSourcegraphRefLinks]: records without a [URL] are
    skipped, a later record replaces an earlier one under the same key. *)
Definition addAnnotation (ix : index) (ann : annotation) : index :=
  match URL ann with
  | Some _ =>
      mkIndex (<[StartByte ann := ann]> (annsByStartByte ix))
              (<[EndByte ann := ann]> (annsByEndByte ix))
  | None => ix
  end.

Definition buildIndex (anns : list annotation) : index :=
  fold_left addAnnotation anns emptyIndex.

(* ------------------------------------------------------------------ *)
(** ** The output string, piece by piece *)

(** What the sweep appends to [output]: the opening tag of an anchor for an
    annotation, the closing tag, or one character of the page. The string
    the script builds is [render] of the pieces. *)
Inductive piece :=
| POpen (a : annotation)
| PChar (c : char)
| PClose.

#[global] Instance piece_eq_dec : EqDecision piece.
Proof. solve_decision. Defined.

Definition urlText (u : option jsstring) : jsstring :=
  match u with
  | Some s => s
  | None => lit "undefined"
  end.

Definition renderPiece (p : piece) : jsstring :=
  match p with
  | POpen a =>
      lit "<a href='https://sourcegraph.com" ++ urlText (URL a) ++
      lit "?utm_source=chromeext&utm_medium=chromeext&utm_campaign=chromeext' target='tab' class='sgdef'>"
  | PChar c => [c]
  | PClose => lit "</a>"
  end.

Definition render (ps : list piece) : jsstring := flat_map renderPiece ps.

(** Removing the inserted anchors: only the page's characters stay. *)
Fixpoint stripAnchors (ps : list piece) : jsstring :=
  match ps with
  | [] => []
  | PChar c :: rest => c :: stripAnchors rest
  | _ :: rest => stripAnchors rest
  end.

(* ------------------------------------------------------------------ *)
(** ** The sweep *)

(** The script-wide flags and the running offset [startByte] of the row. *)
Record sweep := mkSweep {
  consumingSpan : bool;
  annotating : bool;
  startByte : Z
}.

(** [next(c, byteCount, annsByStartByte, annsByEndByte)]: the text to
    append and the new value of [annotating]. *)
Definition next (c : char) (byteCount : Z) (ix : index) (ann : bool)
  : list piece * bool :=
  let closing :=
    if ann && bool_decide (is_Some (annsByEndByte ix !! (byteCount + 1)))
    then ([PChar c; PClose], false)
    else ([PChar c], ann) in
  match annsByStartByte ix !! byteCount with
  | Some matchDetails =>
      if negb ann then
        if EndByte matchDetails - StartByte matchDetails =? 1
        then ([POpen matchDetails; PChar c; PClose], ann)
        else ([POpen matchDetails; PChar c], true)
      else closing
  | None => closing
  end.

(** The test at the head of the inner loop: ["<"] followed by anything but
    a space; past the end of the array the follower is [undefined], which
    is not a space either. *)
Definition opensMarkup (c : char) (follower : option char) : bool :=
  (c =? LT) &&
  match follower with
  | Some d => negb (d =? SPACE)
  | None => true
  end.

(** One turn of the loop over [childNodeChars]. *)
Definition stepChar (ix : index) (c : char) (follower : option char)
    (st : sweep) : list piece * sweep :=
  let consuming := consumingSpan st || opensMarkup c follower in
  let '(out, ann, sb) :=
    if negb consuming then
      let '(o, a) := next c (startByte st) ix (annotating st) in
      (o, a, startByte st + Utf8.byteLength [c])
    else ([PChar c], annotating st, startByte st) in
  (out, mkSweep (if c =? GT then false else consuming) ann sb).

Fixpoint sweepChars (ix : index) (cs : list char) (st : sweep)
  : list piece * sweep :=
  match cs with
  | [] => ([], st)
  | c :: rest =>
      let '(o1, st1) := stepChar ix c (head rest) st in
      let '(o2, st2) := sweepChars ix rest st1 in
      (o1 ++ o2, st2)
  end.

(** A child of the code cell: a text node, read through [nodeValue], or an
    element, read through [outerHTML]. *)
Inductive node :=
| TextNode (nodeValue : jsstring)
| ElementNode (outerHTML : jsstring).

Definition childNodeChars (n : node) : jsstring :=
  match n with
  | TextNode v => v
  | ElementNode h => h
  end.

(** One child: both flags are set to [false], then its characters are swept. *)
Definition sweepChild (ix : index) (n : node) (st : sweep)
  : list piece * sweep :=
  sweepChars ix (childNodeChars n) (mkSweep false false (startByte st)).

Fixpoint sweepChildren (ix : index) (ns : list node) (st : sweep)
  : list piece * sweep :=
  match ns with
  | [] => ([], st)
  | n :: rest =>
      let '(o1, st1) := sweepChild ix n st in
      let '(o2, st2) := sweepChildren ix rest st1 in
      (o1 ++ o2, st2)
  end.

(** The code cell of a table row ([row.cells[1]]). *)
Record cell := mkCell {
  textContent : jsstring;
  childNodes : list node
}.

(** What a row adds to [count]. *)
Definition rowBytes (code : cell) : Z :=
  Utf8.byteLength (textContent code) +
  (if bool_decide (textContent code = [NEWLINE]) then 0 else 1).

(** The script-wide flags outlive the rows; [count] is local to
    [traverseDOM]. *)
Record pass := mkPass {
  count : Z;
  flagConsuming : bool;
  flagAnnotating : bool
}.

(** The body of the loop over [table.rows]: the new markup of the row and
    the state left for the next row. *)
Definition traverseRow (ix : index) (code : cell) (p : pass)
  : list piece * pass :=
  let '(output, st) :=
    sweepChildren ix (childNodes code)
      (mkSweep (flagConsuming p) (flagAnnotating p) (count p)) in
  (output, mkPass (count p + rowBytes code) (consumingSpan st) (annotating st)).

Fixpoint traverseRows (ix : index) (rows : list cell) (p : pass)
  : list (list piece) * pass :=
  match rows with
  | [] => ([], p)
  | code :: rest =>
      let '(o, p1) := traverseRow ix code p in
      let '(os, p2) := traverseRows ix rest p1 in
      (o :: os, p2)
  end.

(* ------------------------------------------------------------------ *)
(** ** The page, the network and the request chain *)

(** What the script reads from the page. *)
Record document := mkDocument {
  (** [document.querySelector(".file .blob-wrapper")] finds an element *)
  blobWrapper : bool;
  (** [innerText] of the first element of class [final-path], if any *)
  finalPath : option jsstring;
  (** [getElementsByClassName("vis-private").length !== 0] *)
  visPrivate : bool;
  (** [getElementsByClassName("file").length !== 0] *)
  fileShown : bool;
  (** [href] of the first element of class [js-permalink-shortcut], if any *)
  permalink : option jsstring;
  (** the code cells of [document.querySelector("table").rows] *)
  tableRows : list cell;
  (** an element of class [sourcegraph-popover visible] exists *)
  popoverVisible : bool
}.

(** The outcome of a [$.ajax] request: [.done] callbacks run with the data,
    or [.fail] callbacks run. *)
Inductive reply (A : Type) :=
| Done (data : A)
| Failed.
Arguments Done {A} data.
Arguments Failed {A}.

(** The answers of the service.  The credential document is given by the
    token attribute of its first [head] element: [None] without a [head]
    element, [Some None] without the attribute.  The two other answers may
    depend on the token sent. *)
Record network := mkNetwork {
  authReply : reply (option (option jsstring));
  versionReply : option jsstring -> reply unit;
  annotationsReply : option jsstring -> reply (list annotation)
}.

(** What a run does to the outside, in order. A token of [None] is the
    [undefined] argument. *)
Inductive effect :=
| ClickListener
| AuthRequest
| VersionRequest (token : option jsstring)
| AnnotationsRequest (token : option jsstring)
| HidePopover
| SetInnerHTML (row : nat) (output : list piece)
| ActivatePopovers (row : nat).

#[global] Instance effect_eq_dec : EqDecision effect.
Proof. solve_decision. Defined.

Definition isRequest (e : effect) : bool :=
  match e with
  | AuthRequest | VersionRequest _ | AnnotationsRequest _ => true
  | _ => false
  end.

Definition isMutation (e : effect) : bool :=
  match e with
  | HidePopover | SetInnerHTML _ _ | ActivatePopovers _ => true
  | _ => false
  end.

(** [replace(code, output)], run from its timer. *)
Definition replace (row : nat) (output : list piece) : list effect :=
  [SetInnerHTML row output; ActivatePopovers row].

(** [traverseDOM]: the rows are computed and their replacement is put on
    timers, the popover is hidden, then the timers run.  The flags are read
    only after a child node has set them, so their value on entry is of no
    consequence. *)
Definition traverseDOM (doc : document) (ix : index) : list effect :=
  let outputs := fst (traverseRows ix (tableRows doc) (mkPass 0 false false)) in
  (if popoverVisible doc then [HidePopover] else []) ++
  concat (imap replace outputs).

Definition getSourcegraphRefLinks (doc : document) (data : list annotation)
  : list effect :=
  traverseDOM doc (buildIndex data).

Definition getAnnotations (doc : document) (net : network)
    (token : option jsstring) : list effect :=
  AnnotationsRequest token ::
  match annotationsReply net token with
  | Done data => getSourcegraphRefLinks doc data
  | Failed => []
  end.

(** [checkLatestCommit]: reading [href] of a missing permalink throws.
    The argument of [.done] is the call [getAnnotations(...)]: it runs as
    soon as the version request is issued, and its result, [undefined], is
    what is registered as the callback. *)
Definition checkLatestCommit (doc : document) (net : network)
    (token : option jsstring) : list effect :=
  if fileShown doc && bool_decide (permalink doc = None) then []
  else
    VersionRequest token ::
    getAnnotations doc net token ++
    match versionReply net token with
    | Done _ => []
    | Failed => []
    end.

Definition authHandler (doc : document) (net : network)
    (data : option (option jsstring)) : list effect :=
  match data with
  | None => []
  | Some attribute =>
      let token :=
        lit "x-oauth-basic:" ++
        match attribute with Some t => t | None => lit "null" end in
      checkLatestCommit doc net (Some token)
  end.

Definition getAuthToken (doc : document) (net : network) : list effect :=
  if visPrivate doc then
    AuthRequest ::
    match authReply net with
    | Done data => authHandler doc net data
    | Failed => []
    end
  else [].

(** The last dot-separated segment of the file name. *)
Definition lastSegment (name : jsstring) : jsstring :=
  List.last (split DOT name) [].

Definition mainCall (doc : document) (net : network) : list effect :=
  if blobWrapper doc then
    ClickListener ::
    match finalPath doc with
    | None => []
    | Some name =>
        if bool_decide (toLowerCase (lastSegment name) = lit "go") then
          if visPrivate doc then getAuthToken doc net
          else checkLatestCommit doc net None
        else []
    end
  else [].

(* ------------------------------------------------------------------ *)
(** ** Notions used in the statements *)

(** The bytes one code point takes. *)
Definition charBytes (cp : Z) : Z := Z.of_nat (length (Utf8.encodeCodePoint cp)).

(** The sum of the bytes of the characters of a string. *)
Definition sumBytes (s : jsstring) : Z :=
  foldr Z.add 0 (List.map charBytes (Utf8.ucs2decode s)).

(** Every entry of an index built by [getSourcegraphRefLinks] sits under
    its own offsets, has a link target, and has an entry under its end. *)
Definition indexed (ix : index) : Prop :=
  (forall k a, annsByStartByte ix !! k = Some a ->
     StartByte a = k /\ is_Some (URL a) /\
     is_Some (annsByEndByte ix !! EndByte a)) /\
  (forall k a, annsByEndByte ix !! k = Some a ->
     EndByte a = k /\ is_Some (URL a)).

(** The flag as the body of the loop sees it, after the test for ["<"]. *)
Definition raised (c : char) (follower : option char) (st : sweep) : bool :=
  consumingSpan st || opensMarkup c follower.


(** The characters of a row as the sweep reads them. *)
Definition rowChars (code : cell) : jsstring :=
  flat_map childNodeChars (childNodes code).


(* ------------------------------------------------------------------ *)
(** ** The page location and the start of a run *)

Definition SLASH : char := 47. (* "/" *)

(** The loop of [checkLatestCommit] over [urlsplit[8]], [urlsplit[9]], ...:
    [path = path + "/" + urlsplit[i]]. *)
Definition joinPath (first : jsstring) (more : list jsstring) : jsstring :=
  fold_left (fun path seg => path ++ SLASH :: seg) more first.

(** [urlsplit[5]==="tree" || urlsplit[5]==="blob"] *)
Definition treeOrBlob (kind : option jsstring) : bool :=
  match kind with
  | Some k => bool_decide (k = lit "tree") || bool_decide (k = lit "blob")
  | None => false
  end.

(** What [checkLatestCommit] reads off [document.URL] and the permalink.
    A field is [None] when the array element it is read from does not
    exist ([undefined]). *)
Record location := mkLocation {
  user : option jsstring;
  repo : option jsstring;
  branch : option jsstring;
  path : option jsstring;
  commitID : option jsstring
}.

(** Lines 74 to 91 of [checkLatestCommit], for the page address [url].  An
    element of [urlsplit] is never [null], so the test on [urlsplit[6]]
    always passes.  The result is [None] when reading [href] of a missing
    permalink throws. *)
Definition locate (url : jsstring) (doc : document) : option location :=
  let urlsplit := split SLASH url in
  let branch :=
    if treeOrBlob (urlsplit !! 5%nat) then urlsplit !! 6%nat
    else Some (lit "master") in
  let path :=
    match urlsplit !! 7%nat with
    | Some first => Some (joinPath first (drop 8 urlsplit))
    | None => None
    end in
  let found commit :=
    Some (mkLocation (urlsplit !! 3%nat) (urlsplit !! 4%nat) branch path commit) in
  if fileShown doc then
    match permalink doc with
    | Some href => found (split SLASH href !! 6%nat)
    | None => None
    end
  else found None.

(** [checkFile]: the page is looked at every 200 ms until it shows a file;
    [polls] are the states of the page at these moments, as far as they are
    followed.  [main] runs [mainCall] on the first one that shows a file. *)
Fixpoint checkFile (polls : list document) (net : network) : list effect :=
  match polls with
  | [] => []
  | doc :: later =>
      if fileShown doc then mainCall doc net else checkFile later net
  end.

(* ------------------------------------------------------------------ *)
(** ** More notions used in the statements *)

(** The record has a [URL]. *)
Definition hasURL (a : annotation) : bool :=
  match URL a with Some _ => true | None => false end.

(** The bytes the sweep counts for a run of characters, one by one. *)
Definition sweptBytes (cs : list char) : Z :=
  foldr (fun c total => Utf8.byteLength [c] + total) 0 cs.

(** The rows whose [innerHTML] is assigned, in the order of assignment. *)
Definition rewrittenRows (es : list effect) : list nat :=
  omap (fun e => match e with SetInnerHTML i _ => Some i | _ => None end) es.

(** The requests among the effects. *)
Definition requests (es : list effect) : list effect :=
  List.filter isRequest es.

(** The token built by [authHandler] from the attribute of the answer. *)
Definition tokenOf (attribute : option jsstring) : jsstring :=
  lit "x-oauth-basic:" ++
  match attribute with Some t => t | None => lit "null" end.

(** What follows the version request. *)
Definition afterVersion (doc : document) (net : network)
    (tok : option jsstring) : list effect :=
  match annotationsReply net tok with
  | Done data => traverseDOM doc (buildIndex data)
  | Failed => []
  end.

(* ------------------------------------------------------------------ *)
(** ** Sample pages *)

Module Samples.

Definition fmtAnn : annotation := mkAnn 0 3 (Some (lit "/x/fmt")).
Definition printlnAnn : annotation := mkAnn 4 11 (Some (lit "/x/Println")).

(** The row [fmt.Println(x)] as one text node. *)
Definition printRow : cell :=
  mkCell (lit "fmt.Println(x)") [TextNode (lit "fmt.Println(x)")].

(** A public page showing [main.go] with the single row [fmt]. *)
Definition goPage : document :=
  mkDocument true (Some (lit "main.go")) false true
    (Some (lit "https://github.com/u/r/blob/0123abc/main.go"))
    [mkCell (lit "fmt") [TextNode (lit "fmt")]] false.

(** The same page on a private repository. *)
Definition privatePage : document :=
  mkDocument true (Some (lit "main.go")) true true
    (Some (lit "https://github.com/u/r/blob/0123abc/main.go"))
    [mkCell (lit "fmt") [TextNode (lit "fmt")]] false.

(** A page showing [README.md]. *)
Definition readmePage : document :=
  mkDocument true (Some (lit "README.md")) false true
    (Some (lit "https://github.com/u/r/blob/0123abc/README.md"))
    [mkCell (lit "fmt") [TextNode (lit "fmt")]] false.

(** The version check is refused; the annotations are served. *)
Definition gateDown : network :=
  mkNetwork Failed (fun _ => Failed) (fun _ => Done [fmtAnn]).

(** The credential request fails; the rest would answer. *)
Definition authDown : network :=
  mkNetwork Failed (fun _ => Done tt) (fun _ => Done [fmtAnn]).

(** Everything answers. *)
Definition allUp : network :=
  mkNetwork (Done (Some (Some (lit "secret"))))
            (fun _ => Done tt) (fun _ => Done [fmtAnn]).

(** An annotation over the four bytes of [abcd], shown as the text [ab]
    followed by the highlighted [cd]. *)
Definition abcdAnn : annotation := mkAnn 0 4 (Some (lit "/x/abcd")).
Definition abText : node := TextNode (lit "ab").
Definition cdSpan : node := ElementNode (lit "<span>cd</span>").

(** The text [é=xy]: an annotation over the two bytes of [é], another
    over [xy]. *)
Definition eAnn : annotation := mkAnn 0 2 (Some (lit "/x/e")).
Definition xyAnn : annotation := mkAnn 3 5 (Some (lit "/x/xy")).
Definition eText : jsstring := 233 :: lit "=xy".

(** The three-byte character U+4E16. *)
Definition cjk : char := 0x4E16.

(** The character U+1F600 as a JavaScript string: a surrogate pair. *)
Definition grin : jsstring := [0xD83D; 0xDE00].

(** A row whose text is that character alone. *)
Definition grinRow : cell := mkCell grin [TextNode grin].



End Samples.

(** Closes [Forall] goals over the characters of a literal. *)
Ltac each_char :=
  vm_compute;
  repeat (constructor; [first [reflexivity | discriminate]|]); constructor.

(* ------------------------------------------------------------------ *)
(** ** Byte lengths *)

Section ByteLengths.

Import Utf8.

Lemma charBytes_range cp : 1 <= charBytes cp <= 4.
Proof.
  unfold charBytes, encodeCodePoint.
  repeat case_match; simpl; lia.
Qed.

Lemma ucs2decode_single c : ucs2decode [c] = [c].
Proof. simpl. by destruct (isHigh c). Qed.

Lemma byteLength_single c : byteLength [c] = charBytes c.
Proof.
  unfold byteLength, encode. rewrite ucs2decode_single. simpl.
  by rewrite app_nil_r.
Qed.

Lemma byteLength_sum s : byteLength s = sumBytes s.
Proof.
  unfold byteLength, encode, sumBytes.
  induction (ucs2decode s) as [|cp cps IH]; simpl; [done|].
  rewrite length_app, Nat2Z.inj_add, IH. done.
Qed.

Lemma byteLength_newline : byteLength [NEWLINE] = 1.
Proof. reflexivity. Qed.

End ByteLengths.

(* ------------------------------------------------------------------ *)
(** ** The index *)

Section Index.

Lemma indexed_empty : indexed emptyIndex.
Proof. split; intros k a H; simpl in H; by rewrite lookup_empty in H. Qed.

Lemma indexed_add ix ann : indexed ix -> indexed (addAnnotation ix ann).
Proof.
  intros [Hs He]. unfold addAnnotation.
  destruct (URL ann) as [u|] eqn:Hu; [|by split].
  split; simpl; intros k a H.
  - destruct (decide (StartByte ann = k)) as [Heq|Hne].
    + subst k. rewrite lookup_insert_eq in H. injection H as <-.
      rewrite Hu, lookup_insert_eq. eauto.
    + rewrite lookup_insert_ne in H by done.
      destruct (Hs k a H) as (? & ? & Hend). repeat split; [done..|].
      destruct (decide (EndByte ann = EndByte a)) as [Heq|?].
      * rewrite Heq, lookup_insert_eq. eauto.
      * by rewrite lookup_insert_ne.
  - destruct (decide (EndByte ann = k)) as [Heq|Hne].
    + subst k. rewrite lookup_insert_eq in H. injection H as <-.
      rewrite Hu. eauto.
    + rewrite lookup_insert_ne in H by done. eauto.
Qed.

Lemma indexed_fold anns : forall ix,
  indexed ix -> indexed (fold_left addAnnotation anns ix).
Proof.
  induction anns as [|a anns IH]; intros ix H; simpl; [done|].
  apply IH, indexed_add, H.
Qed.

Lemma buildIndex_indexed anns : indexed (buildIndex anns).
Proof. apply indexed_fold, indexed_empty. Qed.

End Index.

(* ------------------------------------------------------------------ *)
(** ** The cases of [next] *)

Section Next.

Variable ix : index.

Lemma next_open c b a :
  annsByStartByte ix !! b = Some a ->
  EndByte a - StartByte a <> 1 ->
  next c b ix false = ([POpen a; PChar c], true).
Proof.
  intros Hm Hlen. unfold next. rewrite Hm. simpl.
  destruct (Z.eqb_spec (EndByte a - StartByte a) 1); [lia|done].
Qed.

Lemma next_single c b a :
  annsByStartByte ix !! b = Some a ->
  EndByte a - StartByte a = 1 ->
  next c b ix false = ([POpen a; PChar c; PClose], false).
Proof.
  intros Hm Hlen. unfold next. rewrite Hm, Hlen. done.
Qed.

Lemma next_close c b :
  is_Some (annsByEndByte ix !! (b + 1)) ->
  next c b ix true = ([PChar c; PClose], false).
Proof.
  intros He. unfold next.
  rewrite (bool_decide_eq_true_2 _ He).
  by destruct (annsByStartByte ix !! b).
Qed.

Lemma next_plain_closed c b :
  annsByStartByte ix !! b = None ->
  next c b ix false = ([PChar c], false).
Proof. intros Hm. unfold next. by rewrite Hm. Qed.

Lemma next_plain_open c b :
  annsByEndByte ix !! (b + 1) = None ->
  next c b ix true = ([PChar c], true).
Proof.
  intros He. unfold next. rewrite He.
  rewrite bool_decide_eq_false_2 by (intros [? ?]; done).
  by destruct (annsByStartByte ix !! b).
Qed.


(** [next] always emits the character it was given, once, and around it
    only tags. *)
Lemma next_strip c b fl : stripAnchors (fst (next c b ix fl)) = [c].
Proof.
  unfold next. repeat case_match; reflexivity.
Qed.

End Next.

(* ------------------------------------------------------------------ *)
(** ** One character of the sweep *)

Section Step.

Variable ix : index.

Lemma stepChar_raised c f st :
  raised c f st = true ->
  stepChar ix c f st =
    ([PChar c],
     mkSweep (if c =? GT then false else true) (annotating st) (startByte st)).
Proof.
  unfold raised, stepChar. intros ->. reflexivity.
Qed.

Lemma stepChar_plain c f st :
  raised c f st = false ->
  stepChar ix c f st =
    (fst (next c (startByte st) ix (annotating st)),
     mkSweep false (snd (next c (startByte st) ix (annotating st)))
             (startByte st + Utf8.byteLength [c])).
Proof.
  unfold raised, stepChar. intros ->. simpl.
  destruct (next c (startByte st) ix (annotating st)) as [o a]. simpl.
  by destruct (c =? GT).
Qed.

Lemma opensMarkup_true c f :
  c = LT -> f <> Some SPACE -> opensMarkup c f = true.
Proof.
  intros -> Hf. unfold opensMarkup. simpl.
  destruct f as [d|]; [|done].
  destruct (Z.eqb_spec d SPACE) as [->|]; [by destruct Hf|done].
Qed.


End Step.

(* ------------------------------------------------------------------ *)
(** ** Anchors in the output *)

Section Anchors.

Variable ix : index.





End Anchors.

(* ------------------------------------------------------------------ *)
(** ** Whole rows *)

Section Rows.

Variable ix : index.





Lemma traverseRow_count code p :
  count (snd (traverseRow ix code p)) = count p + rowBytes code.
Proof.
  unfold traverseRow.
  by destruct (sweepChildren ix (childNodes code) _) as [o st].
Qed.

Lemma traverseRows_length rows : forall p,
  length (fst (traverseRows ix rows p)) = length rows.
Proof.
  induction rows as [|code rest IH]; intros p; simpl; [done|].
  destruct (traverseRow ix code p) as [o p1].
  specialize (IH p1). destruct (traverseRows ix rest p1) as [os p2].
  simpl in *. by rewrite IH.
Qed.

(** The counter at the end of the table is the sum of the rows' shares. *)
Lemma traverseRows_count rows : forall p,
  count (snd (traverseRows ix rows p)) =
    count p + foldr Z.add 0 (List.map rowBytes rows).
Proof.
  induction rows as [|code rest IH]; intros p; simpl; [lia|].
  pose proof (traverseRow_count code p) as Hc.
  destruct (traverseRow ix code p) as [o p1].
  specialize (IH p1). destruct (traverseRows ix rest p1) as [os p2].
  simpl in *. lia.
Qed.

End Rows.

(* ------------------------------------------------------------------ *)
(** ** The request chain *)

Section Chain.

Import Samples.

(** The answer to the version request has no part in what
    [checkLatestCommit] does. *)
Lemma checkLatestCommit_version_blind doc a v v' n tok :
  checkLatestCommit doc (mkNetwork a v n) tok =
  checkLatestCommit doc (mkNetwork a v' n) tok.
Proof.
  unfold checkLatestCommit, getAnnotations. simpl.
  destruct (fileShown doc && _); [done|].
  by destruct (v tok), (v' tok).
Qed.

(** C1, at a page whose version request fails: the annotation request is
    issued all the same, and when it succeeds the row is rewritten with
    the anchor.  [getAnnotations] is called while the version request is
    being set up, not from its success callback. *)
Theorem version_failure_still_fetches :
  versionReply gateDown None = Failed /\
  mainCall goPage gateDown =
    [ClickListener; VersionRequest None; AnnotationsRequest None;
     SetInnerHTML 0 [POpen fmtAnn; PChar 102; PChar 109; PChar 116; PClose];
     ActivatePopovers 0].
Proof. split; reflexivity. Qed.

(** C9 as stated fails: on the private page, with a failing credential
    request, no version request follows, with or without a token. *)
Lemma auth_failure_counterexample :
  visPrivate privatePage = true /\
  authReply authDown = Failed /\
  mainCall privatePage authDown = [ClickListener; AuthRequest] /\
  ~ (exists tok, In (VersionRequest tok) (mainCall privatePage authDown)).
Proof.
  repeat split. intros [tok H]. vm_compute in H.
  destruct H as [H|[H|[]]]; discriminate H.
Qed.

(** C9, amended: if the credential request of a private page fails, the
    chain ends at the credential stage: the click listener and the
    credential request are all that happens, and no version request is
    made. *)
Theorem auth_failure_stops doc net :
  visPrivate doc = true ->
  authReply net = Failed ->
  forall e, In e (mainCall doc net) -> e = ClickListener \/ e = AuthRequest.
Proof.
  intros Hp Hf e. unfold mainCall, getAuthToken. rewrite Hp, Hf.
  destruct (blobWrapper doc); simpl; [|tauto].
  destruct (finalPath doc) as [name|]; simpl.
  - case_bool_decide; simpl; intuition.
  - intuition.
Qed.

Lemma auth_failure_stops_witness :
  visPrivate privatePage = true /\ authReply authDown = Failed /\
  (AuthRequest = ClickListener \/ AuthRequest = AuthRequest).
Proof.
  split; [reflexivity|]. split; [reflexivity|].
  apply (auth_failure_stops privatePage authDown); [reflexivity..|].
  vm_compute. tauto.
Defined.

(** C10: anything the run does beyond registering its click listener,
    any request and any change of the page, happens only for a file whose
    last dot-separated name segment, lowercased, is "go"; for any other
    name no request is issued and the page is not changed. *)
Theorem only_go_files doc net :
  (forall e, In e (mainCall doc net) -> e <> ClickListener ->
     exists name, finalPath doc = Some name /\
                  toLowerCase (lastSegment name) = lit "go") /\
  (forall name, finalPath doc = Some name ->
     toLowerCase (lastSegment name) <> lit "go" ->
     forall e, In e (mainCall doc net) ->
       isRequest e = false /\ isMutation e = false).
Proof.
  unfold mainCall. split.
  - intros e Hin Hne.
    destruct (blobWrapper doc); [|done].
    destruct Hin as [<-|Hin]; [done|].
    destruct (finalPath doc) as [name|]; [|done].
    case_bool_decide; [eauto|done].
  - intros name -> Hext e Hin.
    destruct (blobWrapper doc); [|done].
    rewrite bool_decide_eq_false_2 in Hin by done.
    destruct Hin as [<-|[]]. done.
Qed.

Lemma only_go_files_witness :
  (exists name, finalPath goPage = Some name /\
                toLowerCase (lastSegment name) = lit "go") /\
  (isRequest ClickListener = false /\ isMutation ClickListener = false).
Proof.
  split.
  - apply (proj1 (only_go_files goPage allUp) (VersionRequest None)).
    + vm_compute. tauto.
    + discriminate.
  - apply (proj2 (only_go_files readmePage allUp) (lit "README.md")).
    + reflexivity.
    + vm_compute. discriminate.
    + vm_compute. tauto.
Defined.

End Chain.

(* ------------------------------------------------------------------ *)
(** ** Markup and counting *)

Section Counting.

Variable ix : index.

(** Inside a tag: with the flag raised, everything up to and including the
    next [">"] is copied, and the sweep resumes after it with the offset
    and the annotation flag it had before. *)
Lemma sweepChars_tag body rest : forall st,
  consumingSpan st = true ->
  Forall (fun x => x <> GT) body ->
  sweepChars ix (body ++ GT :: rest) st =
    (List.map PChar body ++ PChar GT ::
       fst (sweepChars ix rest (mkSweep false (annotating st) (startByte st))),
     snd (sweepChars ix rest (mkSweep false (annotating st) (startByte st)))).
Proof.
  induction body as [|x body IH]; intros st Hc Hbody; simpl.
  - rewrite stepChar_raised by (unfold raised; by rewrite Hc).
    simpl. by destruct (sweepChars ix rest _).
  - inversion Hbody as [|? ? Hx Hrest]; subst.
    rewrite stepChar_raised by (unfold raised; by rewrite Hc).
    destruct (Z.eqb_spec x GT) as [|_]; [done|].
    rewrite IH by done. reflexivity.
Qed.



(** Outside markup the offset grows by the number of bytes of the UTF-8
    encoding of the array element, and the element itself is what is
    appended between the tags; under an open anchor a three-byte character
    moves the offset by three and stays inside the anchor. *)
Theorem counter_advances_by_bytes c f st :
  raised c f st = false ->
  startByte (snd (stepChar ix c f st)) = startByte st + Utf8.byteLength [c] /\
  1 <= Utf8.byteLength [c] <= 4 /\
  stripAnchors (fst (stepChar ix c f st)) = [c] /\
  (Utf8.byteLength [c] = 3 -> annotating st = true ->
     startByte (snd (stepChar ix c f st)) = startByte st + 3 /\
     head (fst (stepChar ix c f st)) = Some (PChar c)).
Proof.
  intros Hr. rewrite (stepChar_plain ix c f st Hr). simpl.
  split; [done|]. split; [rewrite byteLength_single; apply charBytes_range|].
  split; [apply next_strip|].
  intros -> Hann. split; [done|]. rewrite Hann. unfold next. simpl.
  repeat case_match; reflexivity.
Qed.

End Counting.

(** An element of a string is a code unit: it never takes four bytes. *)
Lemma code_unit_bytes c :
  0 <= c < 0x10000 -> 1 <= Utf8.byteLength [c] <= 3.
Proof.
  intros Hc. rewrite byteLength_single.
  unfold charBytes, Utf8.encodeCodePoint.
  repeat case_match; simpl; lia.
Qed.

(** C8, at a character outside the basic plane.  U+1F600 takes four
    bytes in UTF-8, and these four bytes (and the line end) are what the
    row counter adds for a row made of it.  The sweep reads the character
    as the two elements that [split("")] yields, counts three bytes for
    each of them, and ends at offset six. *)
Theorem astral_character_counted_twice :
  Utf8.byteLength Samples.grin = 4 /\
  rowBytes Samples.grinRow = 4 + 1 /\
  stepChar emptyIndex 0xD83D (Some 0xDE00) (mkSweep false false 0) =
    ([PChar 0xD83D], mkSweep false false 3) /\
  stepChar emptyIndex 0xDE00 None (mkSweep false false 3) =
    ([PChar 0xDE00], mkSweep false false 6) /\
  snd (sweepChildren emptyIndex (childNodes Samples.grinRow)
         (mkSweep false false 0)) = mkSweep false false 6.
Proof. repeat split. Qed.


Lemma counter_advances_by_bytes_witness :
  raised Samples.cjk (Some 98) (mkSweep false true 1) = false /\
  startByte (snd (stepChar (buildIndex [mkAnn 0 5 (Some (lit "/x/w"))])
                    Samples.cjk (Some 98) (mkSweep false true 1))) = 1 + 3.
Proof.
  split; [reflexivity|].
  apply (counter_advances_by_bytes (buildIndex [mkAnn 0 5 (Some (lit "/x/w"))])
           Samples.cjk (Some 98) (mkSweep false true 1)); reflexivity.
Defined.

(* ------------------------------------------------------------------ *)
(** ** Anchors and annotations *)

Section Wrapping.

Import Samples.








(** The row [fmt.Println(x)] with the annotations over [fmt] and
    [Println]: both names are wrapped, the dot and [(x)] are left alone. *)
Example println_row :
  render (fst (traverseRow (buildIndex [fmtAnn; printlnAnn]) printRow
                 (mkPass 0 false false))) =
    renderPiece (POpen fmtAnn) ++ lit "fmt</a>." ++
    renderPiece (POpen printlnAnn) ++ lit "Println</a>(x)".
Proof. reflexivity. Qed.

(** C4: a row moves the counter of the pass by the bytes of the characters
    of its text, added up, and by one more byte for the line end unless the
    text is exactly one newline character. *)
Theorem row_counter_share ix code p :
  count (snd (traverseRow ix code p)) - count p =
    sumBytes (textContent code) +
    (if bool_decide (textContent code = [NEWLINE]) then 0 else 1).
Proof.
  rewrite traverseRow_count. unfold rowBytes.
  rewrite byteLength_sum. lia.
Qed.

(** C5 as stated fails, in each half.  In the text [é=xy] the anchor of
    [é] is still open when [x] is read at offset 3, the start of the
    annotation over [xy]: no opening tag is placed before [x].  In the row
    [ab<span>cd</span>] the character [d] is read at offset 3, one before
    the end of the annotation over [abcd], with the flag down: no closing
    tag is placed after it. *)
Lemma multi_byte_annotation_counterexample :
  (let ix := buildIndex [eAnn; xyAnn] in
   annsByStartByte ix !! 3 = Some xyAnn /\
   EndByte xyAnn - StartByte xyAnn > 1 /\
   sweepChars ix [233; 61] (mkSweep false false 0) =
     ([POpen eAnn; PChar 233; PChar 61], mkSweep false true 3) /\
   stepChar ix 120 (Some 121) (mkSweep false true 3) =
     ([PChar 120], mkSweep false true 4) /\
   fst (sweepChild ix (TextNode eText) (mkSweep false false 0)) =
     [POpen eAnn; PChar 233; PChar 61; PChar 120; PChar 121; PClose]) /\
  (let ix := buildIndex [abcdAnn] in
   annsByStartByte ix !! 0 = Some abcdAnn /\
   EndByte abcdAnn - StartByte abcdAnn > 1 /\
   3 + 1 = EndByte abcdAnn /\
   stepChar ix 100 (Some LT) (mkSweep false false 3) =
     ([PChar 100], mkSweep false false 4) /\
   fst (sweepChildren ix [abText; cdSpan] (mkSweep false false 0)) =
     POpen abcdAnn :: List.map PChar (lit "ab<span>cd</span>")).
Proof. repeat split. Qed.

(** C5, amended: for an annotation of the index longer than one byte,
    stored under offset [N], the character read at offset [N] with no
    anchor open is preceded by the opening tag and the flag is set; a
    character read while the flag is set at an offset one below the
    annotation's end is followed by the closing tag and the flag is
    cleared. *)
Theorem multi_byte_annotation data N a c c' b :
  annsByStartByte (buildIndex data) !! N = Some a ->
  EndByte a - StartByte a > 1 ->
  b + 1 = EndByte a ->
  StartByte a = N /\
  next c N (buildIndex data) false = ([POpen a; PChar c], true) /\
  next c' b (buildIndex data) true = ([PChar c'; PClose], false).
Proof.
  intros Hm Hlen Hb.
  destruct (buildIndex_indexed data) as [Hs _].
  destruct (Hs N a Hm) as (Hn & _ & Hend).
  split; [done|]. split.
  - apply next_open; [done|lia].
  - apply next_close. by rewrite Hb.
Qed.

Lemma multi_byte_annotation_witness :
  annsByStartByte (buildIndex [fmtAnn; printlnAnn]) !! 4 = Some printlnAnn /\
  next 80 4 (buildIndex [fmtAnn; printlnAnn]) false =
    ([POpen printlnAnn; PChar 80], true) /\
  next 110 10 (buildIndex [fmtAnn; printlnAnn]) true =
    ([PChar 110; PClose], false).
Proof.
  split; [reflexivity|].
  apply (multi_byte_annotation [fmtAnn; printlnAnn] 4 printlnAnn 80 110 10);
    [reflexivity|vm_compute; reflexivity|reflexivity].
Defined.



End Wrapping.

(* ------------------------------------------------------------------ *)
(** ** What the index holds *)

Section IndexContents.

Lemma buildIndex_snoc anns a :
  buildIndex (anns ++ [a]) = addAnnotation (buildIndex anns) a.
Proof. unfold buildIndex. by rewrite fold_left_app. Qed.

Lemma addAnnotation_no_url ix a : hasURL a = false -> addAnnotation ix a = ix.
Proof. unfold hasURL, addAnnotation. by destruct (URL a). Qed.

Lemma fold_addAnnotation_filter anns : forall ix,
  fold_left addAnnotation anns ix =
  fold_left addAnnotation (List.filter hasURL anns) ix.
Proof.
  induction anns as [|a anns IH]; intros ix; simpl; [done|].
  destruct (hasURL a) eqn:Hu; simpl.
  - apply IH.
  - rewrite addAnnotation_no_url by done. apply IH.
Qed.

(** X1: whatever is found in the index was a record of the answer, has a
    link target, and is filed under its own start offset (in the first
    object) or its own end offset (in the second). *)
Theorem index_entries_from_data data k a :
  (annsByStartByte (buildIndex data) !! k = Some a ->
     In a data /\ StartByte a = k /\ hasURL a = true) /\
  (annsByEndByte (buildIndex data) !! k = Some a ->
     In a data /\ EndByte a = k /\ hasURL a = true).
Proof.
  induction data as [|b data IH] using rev_ind.
  - split; intros H; simpl in H; by rewrite lookup_empty in H.
  - rewrite buildIndex_snoc. unfold addAnnotation, hasURL in *.
    destruct (URL b) as [u|] eqn:Hu; simpl.
    + split; intros H.
      * destruct (decide (StartByte b = k)) as [Hk|Hk].
        -- subst k. rewrite lookup_insert_eq in H. injection H as <-.
           rewrite Hu, in_app_iff. simpl. tauto.
        -- rewrite lookup_insert_ne in H by done.
           destruct (proj1 IH H) as (? & ? & ?). rewrite in_app_iff. tauto.
      * destruct (decide (EndByte b = k)) as [Hk|Hk].
        -- subst k. rewrite lookup_insert_eq in H. injection H as <-.
           rewrite Hu, in_app_iff. simpl. tauto.
        -- rewrite lookup_insert_ne in H by done.
           destruct (proj2 IH H) as (? & ? & ?). rewrite in_app_iff. tauto.
    + split; intros H.
      * destruct (proj1 IH H) as (? & ? & ?). rewrite in_app_iff. tauto.
      * destruct (proj2 IH H) as (? & ? & ?). rewrite in_app_iff. tauto.
Qed.

Lemma index_entries_from_data_witness :
  In Samples.printlnAnn [Samples.fmtAnn; Samples.printlnAnn] /\
  StartByte Samples.printlnAnn = 4 /\ hasURL Samples.printlnAnn = true.
Proof.
  apply (proj1 (index_entries_from_data
                  [Samples.fmtAnn; Samples.printlnAnn] 4 Samples.printlnAnn)).
  reflexivity.
Defined.

(** X2: a record with a link target is found under its start offset unless
    a later record with a link target has the same start offset, and under
    its end offset unless a later such record has the same end offset: of
    the records that share a key the last one stays. *)
Theorem index_last_record_stays before a after :
  hasURL a = true ->
  (Forall (fun b => hasURL b = true -> StartByte b <> StartByte a) after ->
   annsByStartByte (buildIndex (before ++ a :: after)) !! StartByte a = Some a) /\
  (Forall (fun b => hasURL b = true -> EndByte b <> EndByte a) after ->
   annsByEndByte (buildIndex (before ++ a :: after)) !! EndByte a = Some a).
Proof.
  intros Ha. induction after as [|b after IH] using rev_ind.
  - rewrite buildIndex_snoc. unfold addAnnotation, hasURL in *.
    destruct (URL a); [|done]. simpl.
    split; intros _; apply lookup_insert_eq.
  - replace (before ++ a :: after ++ [b]) with ((before ++ a :: after) ++ [b])
      by (by rewrite <- app_assoc).
    rewrite buildIndex_snoc.
    split; intros Hall; apply Forall_app in Hall as [Hafter Hb];
      inversion Hb as [|? ? Hb' _]; subst;
      unfold addAnnotation, hasURL in *;
      destruct (URL b); simpl; try (by apply IH).
    + rewrite lookup_insert_ne by (by apply Hb'). by apply IH.
    + rewrite lookup_insert_ne by (by apply Hb'). by apply IH.
Qed.

Lemma index_last_record_stays_witness :
  annsByStartByte
    (buildIndex ([mkAnn 0 9 (Some (lit "/old"))] ++
                 Samples.fmtAnn :: [Samples.printlnAnn]))
    !! StartByte Samples.fmtAnn = Some Samples.fmtAnn.
Proof.
  apply (proj1 (index_last_record_stays [mkAnn 0 9 (Some (lit "/old"))]
                  Samples.fmtAnn [Samples.printlnAnn] eq_refl)).
  repeat constructor. vm_compute. discriminate.
Defined.

(** X3: records without a link target leave no trace: the index is the one
    built from the records that have one, and it is empty when no record
    has one. *)
Theorem index_ignores_unlinked data :
  buildIndex data = buildIndex (List.filter hasURL data) /\
  (Forall (fun a => hasURL a = false) data -> buildIndex data = emptyIndex).
Proof.
  split; [apply fold_addAnnotation_filter|].
  intros Hall. unfold buildIndex. rewrite fold_addAnnotation_filter.
  replace (List.filter hasURL data) with (@nil annotation); [done|].
  induction Hall as [|a l Ha _ IH]; simpl; [done|]. by rewrite Ha.
Qed.

Lemma index_ignores_unlinked_witness :
  buildIndex [mkAnn 0 3 None; mkAnn 4 11 None] = emptyIndex.
Proof.
  apply (proj2 (index_ignores_unlinked [mkAnn 0 3 None; mkAnn 4 11 None])).
  repeat constructor.
Defined.

End IndexContents.

(* ------------------------------------------------------------------ *)
(** ** Text without markup *)

Section PlainText.

Variable ix : index.

Lemma raised_text c f st :
  c <> LT -> consumingSpan st = false -> raised c f st = false.
Proof.
  intros Hc Hs. unfold raised, opensMarkup. rewrite Hs. simpl.
  by destruct (Z.eqb_spec c LT).
Qed.

Lemma stepChar_follower c f f' st :
  c <> LT -> stepChar ix c f st = stepChar ix c f' st.
Proof.
  intros Hc. unfold stepChar, opensMarkup.
  by destruct (Z.eqb_spec c LT).
Qed.

Lemma byteLength_pos c : 1 <= Utf8.byteLength [c].
Proof. rewrite byteLength_single. apply charBytes_range. Qed.

Lemma sweptBytes_nonneg cs : 0 <= sweptBytes cs.
Proof.
  induction cs as [|c cs IH]; simpl; [lia|].
  pose proof (byteLength_pos c). lia.
Qed.

Lemma sweptBytes_app xs ys : sweptBytes (xs ++ ys) = sweptBytes xs + sweptBytes ys.
Proof. induction xs as [|x xs IH]; simpl; lia. Qed.

(** Where a run of text ends, the sweep of what follows starts. *)
Lemma sweepChars_app_text xs ys : forall st,
  Forall (fun c => c <> LT) xs ->
  sweepChars ix (xs ++ ys) st =
    (fst (sweepChars ix xs st) ++
       fst (sweepChars ix ys (snd (sweepChars ix xs st))),
     snd (sweepChars ix ys (snd (sweepChars ix xs st)))).
Proof.
  induction xs as [|x xs IH]; intros st Hxs; simpl.
  - by destruct (sweepChars ix ys st).
  - inversion Hxs as [|? ? Hx Hrest]; subst.
    rewrite (stepChar_follower x (head (xs ++ ys)) (head xs) st Hx).
    destruct (stepChar ix x (head xs) st) as [o1 st1].
    rewrite (IH st1 Hrest).
    destruct (sweepChars ix xs st1) as [o2 st2]. simpl.
    destruct (sweepChars ix ys st2) as [o3 st3]. simpl.
    by rewrite app_assoc.
Qed.

Lemma sweepChars_text_state cs : forall st,
  Forall (fun c => c <> LT) cs ->
  consumingSpan st = false ->
  consumingSpan (snd (sweepChars ix cs st)) = false /\
  startByte (snd (sweepChars ix cs st)) = startByte st + sweptBytes cs.
Proof.
  induction cs as [|c cs IH]; intros st Hcs Hs; simpl; [split; [done|lia]|].
  inversion Hcs as [|? ? Hc Hrest]; subst.
  rewrite (stepChar_plain ix c (head cs) st (raised_text c _ st Hc Hs)).
  match goal with |- context [sweepChars ix cs ?s] =>
    destruct (IH s Hrest eq_refl) as [H1 H2];
    destruct (sweepChars ix cs s) as [o2 st2] end.
  simpl in *. split; [done|lia].
Qed.

(** With no anchor open and no start entry in reach, text is copied. *)
Lemma sweep_closed_run cs : forall st,
  consumingSpan st = false -> annotating st = false ->
  Forall (fun c => c <> LT) cs ->
  (forall k, startByte st <= k < startByte st + sweptBytes cs ->
     annsByStartByte ix !! k = None) ->
  sweepChars ix cs st =
    (List.map PChar cs, mkSweep false false (startByte st + sweptBytes cs)).
Proof.
  induction cs as [|c cs IH]; intros st Hs Ha Hcs Hnone; simpl.
  - destruct st; simpl in *; subst. by rewrite Z.add_0_r.
  - inversion Hcs as [|? ? Hc Hrest]; subst.
    pose proof (byteLength_pos c) as Hpos.
    pose proof (sweptBytes_nonneg cs) as Hnn.
    rewrite (stepChar_plain ix c (head cs) st (raised_text c _ st Hc Hs)).
    rewrite Ha, next_plain_closed by (apply Hnone; simpl; lia). simpl.
    rewrite IH; simpl; try done.
    + by rewrite Z.add_assoc.
    + intros k Hk. apply Hnone. simpl. lia.
Qed.

(** With an anchor open and no end entry in reach, text is copied. *)
Lemma sweep_open_run cs : forall st,
  consumingSpan st = false -> annotating st = true ->
  Forall (fun c => c <> LT) cs ->
  (forall k, startByte st <= k < startByte st + sweptBytes cs ->
     annsByEndByte ix !! (k + 1) = None) ->
  sweepChars ix cs st =
    (List.map PChar cs, mkSweep false true (startByte st + sweptBytes cs)).
Proof.
  induction cs as [|c cs IH]; intros st Hs Ha Hcs Hnone; simpl.
  - destruct st; simpl in *; subst. by rewrite Z.add_0_r.
  - inversion Hcs as [|? ? Hc Hrest]; subst.
    pose proof (byteLength_pos c) as Hpos.
    pose proof (sweptBytes_nonneg cs) as Hnn.
    rewrite (stepChar_plain ix c (head cs) st (raised_text c _ st Hc Hs)).
    rewrite Ha, next_plain_open by (apply Hnone; simpl; lia). simpl.
    rewrite IH; simpl; try done.
    + by rewrite Z.add_assoc.
    + intros k Hk. apply Hnone. simpl. lia.
Qed.

(** With the flag raised and no [">"] to come, everything is copied. *)
Lemma sweep_raised_run cs : forall st,
  consumingSpan st = true ->
  Forall (fun c => c <> GT) cs ->
  sweepChars ix cs st =
    (List.map PChar cs, mkSweep true (annotating st) (startByte st)).
Proof.
  induction cs as [|c cs IH]; intros st Hs Hcs; simpl.
  - destruct st; simpl in *; by subst.
  - inversion Hcs as [|? ? Hc Hrest]; subst.
    rewrite stepChar_raised by (unfold raised; by rewrite Hs).
    destruct (Z.eqb_spec c GT) as [|_]; [done|].
    by rewrite IH.
Qed.

Lemma sweptBytes_whole cs :
  Forall (fun c => Utf8.isHigh c = false) cs ->
  sweptBytes cs = Utf8.byteLength cs.
Proof.
  intros Hcs. rewrite byteLength_sum. unfold sumBytes.
  induction Hcs as [|c cs Hc _ IH]; simpl; [done|].
  rewrite Hc. simpl. by rewrite IH, byteLength_single.
Qed.

Lemma render_chars cs : render (List.map PChar cs) = cs.
Proof.
  unfold render. induction cs as [|c cs IH]; simpl; [done|]. by f_equal.
Qed.

End PlainText.

(* ------------------------------------------------------------------ *)
(** ** Rows without links, text and elements *)

Section Sweeping.

Variable ix : index.

Lemma sweepChars_no_starts cs : forall st,
  (forall k, annsByStartByte ix !! k = None) ->
  annotating st = false ->
  fst (sweepChars ix cs st) = List.map PChar cs /\
  annotating (snd (sweepChars ix cs st)) = false.
Proof.
  induction cs as [|c cs IH]; intros st Hnone Ha; simpl; [done|].
  destruct (raised c (head cs) st) eqn:Hr.
  - rewrite (stepChar_raised ix _ _ _ Hr).
    match goal with |- context [sweepChars ix cs ?s] =>
      destruct (IH s Hnone Ha) as [H1 H2];
      destruct (sweepChars ix cs s) as [o2 st2] end.
    simpl in *. by rewrite H1.
  - rewrite (stepChar_plain ix _ _ _ Hr), Ha, next_plain_closed by done.
    match goal with |- context [sweepChars ix cs ?s] =>
      destruct (IH s Hnone eq_refl) as [H1 H2];
      destruct (sweepChars ix cs s) as [o2 st2] end.
    simpl in *. by rewrite H1.
Qed.

Lemma sweepChildren_no_starts ns : forall st,
  (forall k, annsByStartByte ix !! k = None) ->
  fst (sweepChildren ix ns st) = List.map PChar (flat_map childNodeChars ns).
Proof.
  induction ns as [|n ns IH]; intros st Hnone; simpl; [done|].
  unfold sweepChild.
  destruct (sweepChars_no_starts (childNodeChars n)
              (mkSweep false false (startByte st)) Hnone eq_refl) as [H1 _].
  destruct (sweepChars ix (childNodeChars n) _) as [o1 st1].
  specialize (IH st1 Hnone).
  destruct (sweepChildren ix ns st1) as [o2 st2]. simpl in *.
  by rewrite H1, IH, List.map_app.
Qed.

(** X4: when the first object has no entry, no tag is ever appended,
    whatever the second object holds: the new markup of a row is its
    characters as they were read, and the string assigned to [innerHTML]
    is the concatenation of the [nodeValue] and [outerHTML] strings of the
    children. *)
Theorem no_start_entries_no_tags code p :
  (forall k, annsByStartByte ix !! k = None) ->
  fst (traverseRow ix code p) = List.map PChar (rowChars code) /\
  render (fst (traverseRow ix code p)) = rowChars code.
Proof.
  intros Hnone. unfold traverseRow, rowChars.
  pose proof (sweepChildren_no_starts (childNodes code)
                (mkSweep (flagConsuming p) (flagAnnotating p) (count p))
                Hnone) as H.
  destruct (sweepChildren ix (childNodes code) _) as [o st]. simpl in *.
  rewrite H. split; [done|apply render_chars].
Qed.

(** X5: in a run of text without ["<"], read with the markup flag down,
    every character is counted, whatever the index holds; when the run has
    no leading half of a surrogate pair, the offset moves by the byte
    length of the run as a whole, the quantity the row counter uses. *)
Theorem text_offsets_agree cs st :
  Forall (fun c => c <> LT) cs ->
  consumingSpan st = false ->
  startByte (snd (sweepChars ix cs st)) = startByte st + sweptBytes cs /\
  (Forall (fun c => Utf8.isHigh c = false) cs ->
   startByte (snd (sweepChars ix cs st)) = startByte st + Utf8.byteLength cs).
Proof.
  intros Hcs Hs.
  destruct (sweepChars_text_state ix cs st Hcs Hs) as [_ Hsb].
  split; [done|]. intros Hhigh. by rewrite Hsb, sweptBytes_whole.
Qed.

(** X6: an element read as [<tag>text</ctag>]: the two tags are copied and
    not counted, the text between them is swept from the offset the
    element started at, and the offset and the annotation flag after the
    element are those after its text. *)
Theorem element_counts_its_text tag text ctag st :
  head tag <> Some SPACE ->
  Forall (fun c => c <> GT) tag ->
  Forall (fun c => c <> LT) text ->
  head ctag <> Some SPACE ->
  Forall (fun c => c <> GT) ctag ->
  let inner := sweepChars ix text (mkSweep false false (startByte st)) in
  sweepChild ix (ElementNode (LT :: tag ++ GT :: text ++ LT :: ctag ++ [GT])) st =
    (PChar LT :: List.map PChar tag ++ PChar GT ::
       fst inner ++ PChar LT :: List.map PChar ctag ++ [PChar GT],
     mkSweep false (annotating (snd inner)) (startByte (snd inner))).
Proof.
  intros Htag Htag_gt Htext Hctag Hctag_gt inner.
  unfold sweepChild. simpl childNodeChars.
  assert (Hfollow : forall (xs ys : list char),
            head xs <> Some SPACE -> head (xs ++ GT :: ys) <> Some SPACE).
  { intros [|x xs] ys H; simpl; [discriminate|done]. }
  cbn [sweepChars].
  rewrite stepChar_raised
    by (unfold raised; rewrite opensMarkup_true; auto).
  cbn [Z.eqb LT GT Pos.eqb].
  rewrite sweepChars_tag by done. cbn [annotating startByte fst snd].
  rewrite sweepChars_app_text by done. fold inner.
  destruct (sweepChars_text_state ix text (mkSweep false false (startByte st))
              Htext eq_refl) as [Hflag _]. fold inner in Hflag.
  cbn [sweepChars fst snd].
  rewrite stepChar_raised
    by (unfold raised; rewrite opensMarkup_true;
        [by destruct (consumingSpan _) | done | by apply (Hfollow ctag [])]).
  cbn [Z.eqb LT GT Pos.eqb].
  rewrite (sweepChars_tag ix ctag []) by done.
  cbn [sweepChars annotating startByte fst snd app].
  reflexivity.
Qed.

(** X7: a ["<"] that is not followed by a space raises the flag even in a
    text node; when no [">"] follows in the node, the rest of the node is
    copied without being counted and without any tag, and the offset and
    the annotation flag stay as they were. *)
Theorem unclosed_angle_swallows_node rest st :
  head rest <> Some SPACE ->
  Forall (fun c => c <> GT) rest ->
  sweepChars ix (LT :: rest) st =
    (List.map PChar (LT :: rest), mkSweep true (annotating st) (startByte st)).
Proof.
  intros Hhead Hrest. cbn [sweepChars].
  rewrite stepChar_raised
    by (unfold raised; rewrite opensMarkup_true;
        [by destruct (consumingSpan _) | done | done]).
  cbn [Z.eqb LT GT Pos.eqb].
  by rewrite sweep_raised_run.
Qed.

End Sweeping.

Lemma no_start_entries_no_tags_witness :
  render (fst (traverseRow (buildIndex [mkAnn 0 3 None]) Samples.printRow
                 (mkPass 0 false false))) = rowChars Samples.printRow.
Proof.
  apply (no_start_entries_no_tags (buildIndex [mkAnn 0 3 None])
           Samples.printRow (mkPass 0 false false)).
  intros k. reflexivity.
Defined.

Lemma text_offsets_agree_witness :
  startByte (snd (sweepChars (buildIndex [Samples.fmtAnn]) (lit "fmt.")
                    (mkSweep false false 0))) = 0 + Utf8.byteLength (lit "fmt.").
Proof.
  apply (proj2 (text_offsets_agree (buildIndex [Samples.fmtAnn]) (lit "fmt.")
                  (mkSweep false false 0) ltac:(each_char) eq_refl)).
  each_char.
Defined.

Lemma element_counts_its_text_witness :
  sweepChild (buildIndex [Samples.abcdAnn])
    (ElementNode (LT :: lit "span" ++ GT :: lit "cd" ++ LT :: lit "/span" ++ [GT]))
    (mkSweep false true 2) =
  (PChar LT :: List.map PChar (lit "span") ++ PChar GT ::
     List.map PChar (lit "cd") ++ PChar LT :: List.map PChar (lit "/span") ++
     [PChar GT],
   mkSweep false false 4).
Proof.
  apply (element_counts_its_text (buildIndex [Samples.abcdAnn])
           (lit "span") (lit "cd") (lit "/span") (mkSweep false true 2));
    try each_char; discriminate.
Defined.

Lemma unclosed_angle_swallows_node_witness :
  sweepChars (buildIndex [Samples.fmtAnn]) (LT :: lit "b") (mkSweep false false 1) =
    ([PChar LT; PChar 98], mkSweep true false 1).
Proof.
  apply (unclosed_angle_swallows_node (buildIndex [Samples.fmtAnn]) (lit "b")
           (mkSweep false false 1)); [discriminate|each_char].
Defined.

(* ------------------------------------------------------------------ *)
(** ** One annotation in a text node *)

Section OneAnnotation.

Variable a : annotation.
Hypothesis linked : hasURL a = true.

Lemma single_start k :
  annsByStartByte (buildIndex [a]) !! k =
    if decide (StartByte a = k) then Some a else None.
Proof.
  unfold buildIndex, addAnnotation, hasURL in *. simpl.
  destruct (URL a); [|done]. simpl.
  rewrite lookup_insert. by case_decide.
Qed.

Lemma single_end k :
  annsByEndByte (buildIndex [a]) !! k =
    if decide (EndByte a = k) then Some a else None.
Proof.
  unfold buildIndex, addAnnotation, hasURL in *. simpl.
  destruct (URL a); [|done]. simpl.
  rewrite lookup_insert. by case_decide.
Qed.

Lemma single_start_other k :
  k <> StartByte a -> annsByStartByte (buildIndex [a]) !! k = None.
Proof. intros Hk. rewrite single_start. by case_decide. Qed.

Lemma single_end_other k :
  k <> EndByte a -> annsByEndByte (buildIndex [a]) !! k = None.
Proof. intros Hk. rewrite single_end. by case_decide. Qed.

(** X8: a text node without ["<"] and an index made of one annotation that
    starts where the character [c0] is read and ends after the one-byte
    character [cl], at least one character later: the new markup is the
    text with the opening tag before [c0] and the closing tag after [cl],
    and nothing else; the sweep ends with the anchor closed, having counted
    every character. *)
Theorem single_annotation_wraps_its_text pre c0 mid cl post st :
  Forall (fun c => c <> LT) (pre ++ c0 :: mid ++ cl :: post) ->
  Utf8.byteLength [cl] = 1 ->
  StartByte a = startByte st + sweptBytes pre ->
  EndByte a = StartByte a + sweptBytes (c0 :: mid ++ [cl]) ->
  sweepChild (buildIndex [a]) (TextNode (pre ++ c0 :: mid ++ cl :: post)) st =
    (List.map PChar pre ++ POpen a :: List.map PChar (c0 :: mid ++ [cl]) ++
       PClose :: List.map PChar post,
     mkSweep false false
       (startByte st + sweptBytes (pre ++ c0 :: mid ++ cl :: post))).
Proof.
  intros Hall Hcl Hstart Hend.
  apply Forall_app in Hall as [Hpre Hall].
  apply Forall_cons in Hall as [Hc0 Hall].
  apply Forall_app in Hall as [Hmid Hall].
  apply Forall_cons in Hall as [Hlast Hpost].
  pose proof (byteLength_pos c0) as Hp0.
  pose proof (sweptBytes_nonneg pre) as Hnpre.
  pose proof (sweptBytes_nonneg mid) as Hnmid.
  pose proof (sweptBytes_nonneg post) as Hnpost.
  simpl in Hend. rewrite sweptBytes_app in Hend. simpl in Hend.
  unfold sweepChild. simpl childNodeChars.
  (* the text before the annotation *)
  rewrite sweepChars_app_text by done.
  rewrite (sweep_closed_run (buildIndex [a]) pre) by
    (try done; simpl; intros k Hk; apply single_start_other; lia).
  cbn [fst snd sweepChars].
  (* its first character *)
  rewrite stepChar_plain by (by apply raised_text).
  cbn [annotating startByte].
  rewrite (next_open (buildIndex [a]) c0 _ a)
    by (first [lia | rewrite single_start; case_decide; [done|lia]]).
  cbn [fst snd].
  (* the characters up to the last one *)
  rewrite sweepChars_app_text by done.
  rewrite (sweep_open_run (buildIndex [a]) mid) by
    (try done; simpl; intros k Hk; apply single_end_other; lia).
  cbn [fst snd sweepChars].
  (* the last character *)
  rewrite stepChar_plain by (by apply raised_text).
  cbn [annotating startByte].
  rewrite next_close
    by (rewrite single_end; case_decide; [eauto | lia]).
  cbn [fst snd].
  (* the text after the annotation *)
  rewrite (sweep_closed_run (buildIndex [a]) post) by
    (try done; simpl; intros k Hk; apply single_start_other; lia).
  cbn [fst snd startByte].
  f_equal.
  - simpl. rewrite List.map_app. simpl. by rewrite <- app_assoc.
  - f_equal. rewrite !sweptBytes_app. simpl. rewrite sweptBytes_app. simpl. lia.
Qed.

(** X9: a text node without ["<"] and an index made of one annotation
    whose end is one past its start: the character read at the start
    offset, whatever its width, is wrapped in a complete anchor, every
    other character is copied, and the anchor is closed when the sweep
    goes on. *)
Theorem single_character_annotation pre c post st :
  Forall (fun x => x <> LT) (pre ++ c :: post) ->
  StartByte a = startByte st + sweptBytes pre ->
  EndByte a = StartByte a + 1 ->
  sweepChild (buildIndex [a]) (TextNode (pre ++ c :: post)) st =
    (List.map PChar pre ++ POpen a :: PChar c :: PClose :: List.map PChar post,
     mkSweep false false (startByte st + sweptBytes (pre ++ c :: post))).
Proof.
  intros Hall Hstart Hend.
  apply Forall_app in Hall as [Hpre Hall].
  apply Forall_cons in Hall as [Hc Hpost].
  pose proof (byteLength_pos c) as Hp.
  pose proof (sweptBytes_nonneg pre) as Hnpre.
  pose proof (sweptBytes_nonneg post) as Hnpost.
  unfold sweepChild. simpl childNodeChars.
  rewrite sweepChars_app_text by done.
  rewrite (sweep_closed_run (buildIndex [a]) pre) by
    (try done; simpl; intros k Hk; apply single_start_other; lia).
  cbn [fst snd sweepChars].
  rewrite stepChar_plain by (by apply raised_text).
  cbn [annotating startByte].
  rewrite (next_single (buildIndex [a]) c _ a)
    by (first [lia | rewrite single_start; case_decide; [done|lia]]).
  cbn [fst snd].
  rewrite (sweep_closed_run (buildIndex [a]) post) by
    (try done; simpl; intros k Hk; apply single_start_other; lia).
  cbn [fst snd startByte].
  f_equal.
  f_equal. rewrite !sweptBytes_app. simpl. lia.
Qed.

End OneAnnotation.

Lemma single_annotation_wraps_its_text_witness :
  sweepChild (buildIndex [Samples.printlnAnn])
    (TextNode (lit "fmt." ++ 80 :: lit "rintl" ++ 110 :: lit "(x)"))
    (mkSweep true true 0) =
  (List.map PChar (lit "fmt.") ++ POpen Samples.printlnAnn ::
     List.map PChar (80 :: lit "rintl" ++ [110]) ++
     PClose :: List.map PChar (lit "(x)"),
   mkSweep false false
     (0 + sweptBytes (lit "fmt." ++ 80 :: lit "rintl" ++ 110 :: lit "(x)"))).
Proof.
  apply (single_annotation_wraps_its_text Samples.printlnAnn eq_refl
           (lit "fmt.") 80 (lit "rintl") 110 (lit "(x)") (mkSweep true true 0));
    [each_char|reflexivity..].
Defined.

Lemma single_character_annotation_witness :
  sweepChild (buildIndex [mkAnn 1 2 (Some (lit "/x/w"))])
    (TextNode (lit "a" ++ Samples.cjk :: lit "b")) (mkSweep false false 0) =
  (List.map PChar (lit "a") ++ POpen (mkAnn 1 2 (Some (lit "/x/w"))) ::
     PChar Samples.cjk :: PClose :: List.map PChar (lit "b"),
   mkSweep false false (0 + sweptBytes (lit "a" ++ Samples.cjk :: lit "b"))).
Proof.
  apply (single_character_annotation (mkAnn 1 2 (Some (lit "/x/w"))) eq_refl
           (lit "a") Samples.cjk (lit "b") (mkSweep false false 0));
    [each_char|reflexivity..].
Defined.

(* ------------------------------------------------------------------ *)
(** ** The table as a whole *)

Section Table.

Variable ix : index.

Lemma sweepChildren_flags ns st st' :
  startByte st = startByte st' ->
  fst (sweepChildren ix ns st) = fst (sweepChildren ix ns st').
Proof.
  intros Hsb. destruct ns as [|n ns]; simpl; [done|].
  unfold sweepChild. by rewrite Hsb.
Qed.

Lemma traverseRow_flags code p :
  fst (traverseRow ix code p) =
  fst (traverseRow ix code (mkPass (count p) false false)).
Proof.
  unfold traverseRow. simpl.
  pose proof (sweepChildren_flags (childNodes code)
    (mkSweep (flagConsuming p) (flagAnnotating p) (count p))
    (mkSweep false false (count p)) eq_refl) as H.
  destruct (sweepChildren ix (childNodes code) (mkSweep (flagConsuming p) _ _)).
  by destruct (sweepChildren ix (childNodes code) (mkSweep false false _)).
Qed.

(** X10: the new markup of a row is computed from its own cell and from
    one number, the bytes of the text of the rows above it (with their line
    ends); the markup, the flags and the anchors of earlier rows have no
    influence on it. *)
Theorem row_depends_on_text_above rows : forall p (i : nat) code,
  rows !! i = Some code ->
  fst (traverseRows ix rows p) !! i =
    Some (fst (traverseRow ix code
                 (mkPass (count p + foldr Z.add 0 (List.map rowBytes (take i rows)))
                         false false))).
Proof.
  induction rows as [|code0 rest IH]; intros p i code Hi; [done|].
  simpl traverseRows.
  pose proof (traverseRow_count ix code0 p) as Hc.
  pose proof (traverseRow_flags code0 p) as Hf.
  destruct (traverseRow ix code0 p) as [o p1].
  specialize (IH p1).
  destruct (traverseRows ix rest p1) as [os p2]. simpl in *.
  destruct i as [|i]; simpl in *.
  - injection Hi as <-. by rewrite Z.add_0_r, Hf.
  - rewrite (IH i code Hi), Hc. do 4 f_equal. lia.
Qed.

Lemma rewrittenRows_app es fs :
  rewrittenRows (es ++ fs) = rewrittenRows es ++ rewrittenRows fs.
Proof. apply omap_app. Qed.

Lemma rewrittenRows_replace (outs : list (list piece)) : forall k : nat,
  rewrittenRows (concat (imap (fun i => replace (k + i)) outs)) =
  seq k (length outs).
Proof.
  induction outs as [|o outs IH]; intros k; [done|].
  cbn [imap concat length seq]. rewrite rewrittenRows_app.
  rewrite Nat.add_0_r. cbn [replace rewrittenRows omap app].
  f_equal. rewrite <- (IH (S k)). do 2 f_equal.
  apply imap_ext. intros i x _. simpl. f_equal. lia.
Qed.

Lemma replace_mutations (outs : list (list piece)) : forall f : nat -> nat,
  Forall (fun e => isMutation e = true)
         (concat (imap (fun i => replace (f i)) outs)).
Proof.
  induction outs as [|o outs IH]; intros f; [constructor|].
  cbn [imap concat]. apply Forall_app. split.
  - by repeat constructor.
  - apply (IH (f ∘ S)).
Qed.

End Table.

(** X11: a pass assigns [innerHTML] of every row of the table once, from
    the first row to the last, rows without any link included; besides
    hiding the popover it does nothing else to the page and issues no
    request. *)
Theorem every_row_rewritten_once doc ix :
  rewrittenRows (traverseDOM doc ix) = seq 0 (length (tableRows doc)) /\
  Forall (fun e => isMutation e = true) (traverseDOM doc ix).
Proof.
  unfold traverseDOM. split.
  - rewrite rewrittenRows_app.
    replace (rewrittenRows (if popoverVisible doc then [HidePopover] else []))
      with (@nil nat) by (by destruct (popoverVisible doc)).
    rewrite (rewrittenRows_replace _ 0), traverseRows_length. done.
  - apply Forall_app. split.
    + destruct (popoverVisible doc); by repeat constructor.
    + apply (replace_mutations _ (fun i => i)).
Qed.

Lemma row_depends_on_text_above_witness :
  fst (traverseRows (buildIndex [Samples.fmtAnn])
         [Samples.printRow; Samples.printRow] (mkPass 0 true true)) !! 1%nat =
  Some (fst (traverseRow (buildIndex [Samples.fmtAnn]) Samples.printRow
               (mkPass (0 + foldr Z.add 0
                              (List.map rowBytes
                                 (take 1 [Samples.printRow; Samples.printRow])))
                       false false))).
Proof.
  apply (row_depends_on_text_above (buildIndex [Samples.fmtAnn])
           [Samples.printRow; Samples.printRow] (mkPass 0 true true) 1%nat
           Samples.printRow).
  reflexivity.
Defined.

(* ------------------------------------------------------------------ *)
(** ** The shape of a run *)

Section Runs.

Lemma checkLatestCommit_shape doc net tok :
  (fileShown doc = true /\ permalink doc = None /\
   checkLatestCommit doc net tok = []) \/
  (~ (fileShown doc = true /\ permalink doc = None) /\
   checkLatestCommit doc net tok =
     VersionRequest tok :: AnnotationsRequest tok :: afterVersion doc net tok).
Proof.
  unfold checkLatestCommit, getAnnotations, getSourcegraphRefLinks, afterVersion.
  destruct (fileShown doc); simpl.
  - case_bool_decide as Hp.
    + by left.
    + right. split; [tauto|].
      destruct (versionReply net tok); by rewrite app_nil_r.
  - right. split; [intros [? _]; done|].
    destruct (versionReply net tok); by rewrite app_nil_r.
Qed.

Lemma mainCall_shape doc net :
  mainCall doc net = [] \/
  mainCall doc net = [ClickListener] \/
  (visPrivate doc = false /\
   mainCall doc net = ClickListener :: checkLatestCommit doc net None) \/
  (visPrivate doc = true /\ authReply net <> Failed /\
   mainCall doc net = [ClickListener; AuthRequest] /\
   (forall attribute, authReply net <> Done (Some attribute))) \/
  (visPrivate doc = true /\ authReply net = Failed /\
   mainCall doc net = [ClickListener; AuthRequest]) \/
  (exists attribute,
     visPrivate doc = true /\ authReply net = Done (Some attribute) /\
     mainCall doc net =
       ClickListener :: AuthRequest ::
       checkLatestCommit doc net (Some (tokenOf attribute))).
Proof.
  unfold mainCall, getAuthToken, authHandler, tokenOf.
  destruct (blobWrapper doc); [|by left].
  destruct (finalPath doc) as [name|]; [|by right; left].
  case_bool_decide; [|by right; left].
  destruct (visPrivate doc) eqn:Hp; [|by right; right; left].
  destruct (authReply net) as [[attribute|]|] eqn:Ha.
  - do 5 right. by exists attribute.
  - do 3 right. left. repeat split; done.
  - do 4 right. left. done.
Qed.

(** X12: the page is changed only by a pass over the table that was
    started by an answer to the annotations request: without such an
    answer no popover is hidden and no row is rewritten. *)
Theorem changes_need_annotations doc net e :
  In e (mainCall doc net) ->
  isMutation e = true ->
  exists tok data,
    annotationsReply net tok = Done data /\
    In e (traverseDOM doc (buildIndex data)).
Proof.
  intros Hin Hm.
  assert (Hcheck : forall tok, In e (checkLatestCommit doc net tok) ->
            exists tok data, annotationsReply net tok = Done data /\
                             In e (traverseDOM doc (buildIndex data))).
  { intros tok Hc.
    destruct (checkLatestCommit_shape doc net tok) as [(_ & _ & Heq)|[_ Heq]];
      rewrite Heq in Hc; [done|].
    destruct Hc as [<-|[<-|Hc]]; [done..|].
    unfold afterVersion in Hc.
    destruct (annotationsReply net tok) as [data|] eqn:Hr; [eauto|done]. }
  destruct (mainCall_shape doc net)
    as [Heq|[Heq|[[_ Heq]|[(_ & _ & Heq & _)|[(_ & _ & Heq)|(t & _ & _ & Heq)]]]]];
    rewrite Heq in Hin.
  - done.
  - destruct Hin as [<-|[]]. done.
  - destruct Hin as [<-|Hin]; [done|]. eauto.
  - destruct Hin as [<-|[<-|[]]]; done.
  - destruct Hin as [<-|[<-|[]]]; done.
  - destruct Hin as [<-|[<-|Hin]]; [done..|]. eauto.
Qed.

(** X13: on a page that is not marked private the credential request is
    never made and every request goes out without a token. *)
Theorem public_page_sends_no_token doc net e :
  visPrivate doc = false ->
  In e (mainCall doc net) ->
  e <> AuthRequest /\
  (forall tok, e = VersionRequest tok \/ e = AnnotationsRequest tok ->
     tok = None).
Proof.
  intros Hp Hin.
  destruct (mainCall_shape doc net)
    as [Heq|[Heq|[[_ Heq]|[(Hq & _)|[(Hq & _)|(t & Hq & _)]]]]];
    try congruence; rewrite Heq in Hin.
  - done.
  - destruct Hin as [<-|[]]. split; [done|]. by intros tok [?|?].
  - destruct Hin as [<-|Hin]; [split; [done|]; by intros tok [?|?]|].
    destruct (checkLatestCommit_shape doc net None) as [(_ & _ & Hc)|[_ Hc]];
      rewrite Hc in Hin; [done|].
    destruct Hin as [<-|[<-|Hin]].
    + split; [done|]. intros tok [[= <-]|?]; done.
    + split; [done|]. intros tok [?|[= <-]]; done.
    + unfold afterVersion in Hin.
      destruct (annotationsReply net None) as [data|]; [|done].
      destruct (every_row_rewritten_once doc (buildIndex data)) as [_ Hall].
      rewrite Forall_forall in Hall. apply list_elem_of_In, Hall in Hin.
      split; [by intros ->|]. by intros tok [-> | ->].
Qed.

(** X14: on a private page a version or annotations request is made only
    after the credential request was answered with a document that has a
    [head] element, and both carry the token built from its attribute:
    the prefix followed by the attribute, or by [null] when the attribute
    is missing. *)
Theorem private_page_token doc net e tok :
  visPrivate doc = true ->
  In e (mainCall doc net) ->
  e = VersionRequest tok \/ e = AnnotationsRequest tok ->
  exists attribute,
    authReply net = Done (Some attribute) /\
    tok = Some (tokenOf attribute).
Proof.
  intros Hp Hin He.
  assert (Hmut : isMutation e = false) by (by destruct He as [-> | ->]).
  destruct (mainCall_shape doc net)
    as [Heq|[Heq|[[Hq _]|[(_ & _ & Heq & _)|[(_ & _ & Heq)|(t & _ & Ha & Heq)]]]]];
    try congruence; rewrite Heq in Hin.
  - done.
  - destruct Hin as [<-|[]]. by destruct He.
  - destruct Hin as [<-|[<-|[]]]; by destruct He.
  - destruct Hin as [<-|[<-|[]]]; by destruct He.
  - exists t. split; [done|].
    destruct Hin as [<-|[<-|Hin]]; [by destruct He..|].
    destruct (checkLatestCommit_shape doc net (Some (tokenOf t)))
      as [(_ & _ & Hc)|[_ Hc]]; rewrite Hc in Hin; [done|].
    destruct Hin as [<-|[<-|Hin]].
    + by destruct He as [[= <-]|?].
    + by destruct He as [?|[= <-]].
    + unfold afterVersion in Hin.
      destruct (annotationsReply net _) as [data|]; [|done].
      destruct (every_row_rewritten_once doc (buildIndex data)) as [_ Hall].
      rewrite Forall_forall in Hall. apply list_elem_of_In, Hall in Hin.
      congruence.
Qed.

(** X15: a run makes at most one request per endpoint, in the order
    credential, version, annotations, with the same token on the last two,
    and every request comes before the first change of the page: the run
    is a part without changes followed by a part made of changes only. *)
Theorem requests_then_changes doc net :
  exists before changes,
    mainCall doc net = before ++ changes /\
    Forall (fun e => isMutation e = false) before /\
    Forall (fun e => isMutation e = true) changes /\
    (requests before = [] \/
     requests before = [AuthRequest] \/
     exists tok,
       requests before = [VersionRequest tok; AnnotationsRequest tok] \/
       requests before = [AuthRequest; VersionRequest tok; AnnotationsRequest tok]).
Proof.
  assert (Hafter : forall tok,
            Forall (fun e => isMutation e = true) (afterVersion doc net tok)).
  { intros tok. unfold afterVersion.
    destruct (annotationsReply net tok); [|constructor].
    apply every_row_rewritten_once. }
  assert (Hsplit : forall before changes,
            Forall (fun e => isMutation e = false) before ->
            Forall (fun e => isMutation e = true) changes ->
            (requests before = [] \/
             requests before = [AuthRequest] \/
             exists tok,
               requests before = [VersionRequest tok; AnnotationsRequest tok] \/
               requests before =
                 [AuthRequest; VersionRequest tok; AnnotationsRequest tok]) ->
            exists before' changes',
              before ++ changes = before' ++ changes' /\
              Forall (fun e => isMutation e = false) before' /\
              Forall (fun e => isMutation e = true) changes' /\
              (requests before' = [] \/
               requests before' = [AuthRequest] \/
               exists tok,
                 requests before' = [VersionRequest tok; AnnotationsRequest tok] \/
                 requests before' =
                   [AuthRequest; VersionRequest tok; AnnotationsRequest tok])).
  { intros before changes ? ? ?. by exists before, changes. }
  destruct (mainCall_shape doc net)
    as [Heq|[Heq|[[_ Heq]|[(_ & _ & Heq & _)|[(_ & _ & Heq)|(t & _ & _ & Heq)]]]]];
    rewrite Heq.
  - apply (Hsplit [] []); [constructor..|by left].
  - apply (Hsplit [ClickListener] []); [by repeat constructor..|by left].
  - destruct (checkLatestCommit_shape doc net None) as [(_ & _ & Hc)|[_ Hc]];
      rewrite Hc.
    + apply (Hsplit [ClickListener] []); [by repeat constructor..|by left].
    + apply (Hsplit [ClickListener; VersionRequest None; AnnotationsRequest None]
                    (afterVersion doc net None));
        [by repeat constructor|apply Hafter|].
      right. right. exists None. by left.
  - apply (Hsplit [ClickListener; AuthRequest] []);
      [by repeat constructor..|by right; left].
  - apply (Hsplit [ClickListener; AuthRequest] []);
      [by repeat constructor..|by right; left].
  - destruct (checkLatestCommit_shape doc net (Some (tokenOf t)))
      as [(_ & _ & Hc)|[_ Hc]]; rewrite Hc.
    + apply (Hsplit [ClickListener; AuthRequest] []);
        [by repeat constructor..|by right; left].
    + apply (Hsplit [ClickListener; AuthRequest;
                     VersionRequest (Some (tokenOf t));
                     AnnotationsRequest (Some (tokenOf t))]
                    (afterVersion doc net (Some (tokenOf t))));
        [by repeat constructor|apply Hafter|].
      right. right. exists (Some (tokenOf t)). by right.
Qed.

(** X16: when the page shows a file but has no permalink element, reading
    the commit throws before any version request is set up: the run stops
    after the click listener and, on a private page, the credential
    request. *)
Theorem missing_permalink_stops doc net e :
  fileShown doc = true ->
  permalink doc = None ->
  In e (mainCall doc net) ->
  e = ClickListener \/ e = AuthRequest.
Proof.
  intros Hf Hp Hin.
  assert (Hcheck : forall tok, checkLatestCommit doc net tok = []).
  { intros tok.
    destruct (checkLatestCommit_shape doc net tok) as [(_ & _ & Hc)|[Hn _]];
      [done|tauto]. }
  destruct (mainCall_shape doc net)
    as [Heq|[Heq|[[_ Heq]|[(_ & _ & Heq & _)|[(_ & _ & Heq)|(t & _ & _ & Heq)]]]]];
    rewrite Heq, ?Hcheck in Hin; simpl in Hin; intuition (subst; auto).
Qed.

End Runs.

Lemma changes_need_annotations_witness :
  exists tok data,
    annotationsReply Samples.gateDown tok = Done data /\
    In (ActivatePopovers 0) (traverseDOM Samples.goPage (buildIndex data)).
Proof.
  apply (changes_need_annotations Samples.goPage Samples.gateDown
           (ActivatePopovers 0)); [vm_compute; tauto|reflexivity].
Defined.

Lemma public_page_sends_no_token_witness :
  VersionRequest None <> AuthRequest /\
  (forall tok, VersionRequest None = VersionRequest tok \/
               VersionRequest None = AnnotationsRequest tok -> tok = None).
Proof.
  apply (public_page_sends_no_token Samples.goPage Samples.allUp
           (VersionRequest None)); [reflexivity|vm_compute; tauto].
Defined.

Lemma private_page_token_witness :
  exists attribute,
    authReply Samples.allUp = Done (Some attribute) /\
    Some (lit "x-oauth-basic:secret") = Some (tokenOf attribute).
Proof.
  apply (private_page_token Samples.privatePage Samples.allUp
           (VersionRequest (Some (lit "x-oauth-basic:secret")))
           (Some (lit "x-oauth-basic:secret")));
    [reflexivity|vm_compute; tauto|by left].
Defined.

Lemma missing_permalink_stops_witness :
  AuthRequest = ClickListener \/ AuthRequest = AuthRequest.
Proof.
  apply (missing_permalink_stops
           (mkDocument true (Some (lit "main.go")) true true None [] false)
           Samples.allUp AuthRequest); [reflexivity..|vm_compute; tauto].
Defined.

(* ------------------------------------------------------------------ *)
(** ** Splitting and joining *)

Section Splitting.

Variable sep : char.

Lemma split_nonempty s : split sep s <> [].
Proof.
  destruct s as [|c s]; simpl; [done|].
  destruct (c =? sep); [done|]. by destruct (split sep s).
Qed.

Lemma split_app s r :
  split sep (s ++ sep :: r) = split sep s ++ split sep r.
Proof.
  induction s as [|c s IH]; simpl.
  - by rewrite Z.eqb_refl.
  - destruct (c =? sep); [by rewrite IH|].
    rewrite IH. pose proof (split_nonempty s) as Hne.
    by destruct (split sep s).
Qed.

Lemma split_free s : ~ In sep s -> split sep s = [s].
Proof.
  induction s as [|c s IH]; simpl; [done|].
  intros Hin. destruct (Z.eqb_spec c sep) as [->|_]; [tauto|].
  rewrite IH by tauto. done.
Qed.

Lemma split_segments_free s : Forall (fun w => ~ In sep w) (split sep s).
Proof.
  induction s as [|c s IH]; simpl.
  - constructor; [tauto|constructor].
  - destruct (Z.eqb_spec c sep) as [->|Hc].
    + constructor; [tauto|done].
    + destruct (split sep s) as [|w ws]; [repeat constructor; simpl; tauto|].
      inversion IH; subst. constructor; [simpl; tauto|done].
Qed.

End Splitting.

Section Paths.

Lemma joinPath_prefix front first more :
  joinPath (front ++ first) more = front ++ joinPath first more.
Proof.
  revert first. induction more as [|seg more IH]; intros first; simpl; [done|].
  by rewrite <- app_assoc, IH.
Qed.

Lemma joinPath_cons first seg more :
  joinPath first (seg :: more) = first ++ SLASH :: joinPath seg more.
Proof.
  change (joinPath first (seg :: more))
    with (joinPath (first ++ [SLASH] ++ seg) more).
  by rewrite !joinPath_prefix.
Qed.

Lemma joinPath_app first more seg rest :
  joinPath first (more ++ seg :: rest) =
  joinPath first more ++ SLASH :: joinPath seg rest.
Proof.
  revert first. induction more as [|m more IH]; intros first.
  - apply joinPath_cons.
  - apply (IH (first ++ SLASH :: m)).
Qed.

Lemma split_joinPath more : forall first,
  Forall (fun w => ~ In SLASH w) (first :: more) ->
  split SLASH (joinPath first more) = first :: more.
Proof.
  induction more as [|seg more IH]; intros first Hall;
    inversion Hall as [|? ? Hfirst Hmore]; subst.
  - by apply split_free.
  - rewrite joinPath_cons, split_app, split_free by done.
    by rewrite IH.
Qed.

Lemma joinPath_split s :
  exists first more, split SLASH s = first :: more /\ joinPath first more = s.
Proof.
  induction s as [|c s (first & more & Hs & Hj)]; simpl.
  - by exists [], [].
  - destruct (c =? SLASH) eqn:Hc.
    + apply Z.eqb_eq in Hc as ->. exists [], (first :: more).
      rewrite Hs, joinPath_cons, Hj. done.
    + rewrite Hs. exists (c :: first), more.
      split; [done|].
      change (c :: first) with ([c] ++ first).
      by rewrite joinPath_prefix, Hj.
Qed.

(** X17: the address of a file or directory view, written as its segments
    joined by slashes, is taken apart into the owner, the repository, the
    revision and the file path with its slashes put back, and the commit
    is the seventh segment of the permalink, provided no segment holds a
    slash. *)
Theorem locate_well_formed host owner name kind rev first more href doc :
  Forall (fun w => ~ In SLASH w)
         (host :: owner :: name :: kind :: rev :: first :: more) ->
  kind = lit "blob" \/ kind = lit "tree" ->
  permalink doc = Some href ->
  locate (joinPath (lit "https:")
            ([] :: host :: owner :: name :: kind :: rev :: first :: more)) doc =
    Some (mkLocation (Some owner) (Some name) (Some rev)
            (Some (joinPath first more))
            (if fileShown doc then split SLASH href !! 6%nat else None)).
Proof.
  intros Hall Hkind Hperm. unfold locate.
  rewrite split_joinPath, Hperm.
  - destruct Hkind as [-> | ->]; by destruct (fileShown doc).
  - constructor; [vm_compute; intuition discriminate|].
    constructor; [simpl; tauto|done].
Qed.

(** X18: the owner, the repository and the revision read off an address
    never hold a slash, and the revision is either the seventh segment of
    a file or directory view or the word master: a revision name with a
    slash in it is cut at the slash. *)
Theorem located_names_have_no_slash url doc loc :
  locate url doc = Some loc ->
  (forall w, user loc = Some w \/ repo loc = Some w \/ branch loc = Some w ->
     ~ In SLASH w) /\
  (branch loc = Some (lit "master") \/
   (treeOrBlob (split SLASH url !! 5%nat) = true /\
    branch loc = split SLASH url !! 6%nat)).
Proof.
  intros Hloc.
  pose proof (split_segments_free SLASH url) as Hfree.
  rewrite Forall_forall in Hfree.
  assert (Hseg : forall (i : nat) w, split SLASH url !! i = Some w -> ~ In SLASH w).
  { intros i w Hi. apply Hfree. by apply list_elem_of_lookup_2 in Hi. }
  assert (Hmaster : ~ In SLASH (lit "master"))
    by (vm_compute; intuition discriminate).
  unfold locate in Hloc.
  destruct (treeOrBlob (split SLASH url !! 5%nat)) eqn:Hkind;
    destruct (fileShown doc); try destruct (permalink doc);
    try discriminate Hloc; injection Hloc as <-; simpl;
    (split; [intros w [Hw|[Hw|Hw]]; try (injection Hw as <-); eauto | auto]).
Qed.

(** X19: the file path read off an address is what follows the first
    seven segments, slashes included: the address is these segments joined
    by slashes, a slash, and the path. *)
Theorem located_path_is_the_rest url doc loc p :
  locate url doc = Some loc ->
  path loc = Some p ->
  exists first more,
    take 7 (split SLASH url) = first :: more /\
    url = joinPath first more ++ SLASH :: p.
Proof.
  intros Hloc Hp.
  destruct (joinPath_split url) as (first & more & Hs & Hj).
  assert (Hpath : path loc =
            match split SLASH url !! 7%nat with
            | Some seg => Some (joinPath seg (drop 8 (split SLASH url)))
            | None => None
            end).
  { unfold locate in Hloc.
    destruct (fileShown doc); try destruct (permalink doc);
      try discriminate Hloc; by injection Hloc as <-. }
  rewrite Hp in Hpath.
  destruct (split SLASH url !! 7%nat) as [seg|] eqn:Hseg; [|done].
  injection Hpath as ->.
  pose proof (take_drop_middle _ _ _ Hseg) as Hmid.
  rewrite Hs in Hmid, Hseg |- *.
  exists first, (take 6 more). split; [done|].
  rewrite <- Hj at 1.
  destruct more as [|m0 more]; [done|].
  change ((first :: m0 :: more) !! 7%nat) with (more !! 5%nat) in Hseg.
  cbn [take drop] in Hmid |- *.
  pose proof (take_drop_middle _ _ _ Hseg) as Hmore.
  rewrite <- Hmore at 1.
  rewrite app_comm_cons, joinPath_app.
  reflexivity.
Qed.

End Paths.

Lemma locate_well_formed_witness :
  locate (joinPath (lit "https:")
            ([] :: lit "github.com" :: lit "u" :: lit "r" :: lit "blob" ::
             lit "master" :: lit "cmd" :: [lit "main.go"])) Samples.goPage =
    Some (mkLocation (Some (lit "u")) (Some (lit "r")) (Some (lit "master"))
            (Some (joinPath (lit "cmd") [lit "main.go"]))
            (if fileShown Samples.goPage
             then split SLASH (lit "https://github.com/u/r/blob/0123abc/main.go")
                    !! 6%nat
             else None)).
Proof.
  apply (locate_well_formed (lit "github.com") (lit "u") (lit "r") (lit "blob")
           (lit "master") (lit "cmd") [lit "main.go"]
           (lit "https://github.com/u/r/blob/0123abc/main.go") Samples.goPage);
    [|by left|reflexivity].
  repeat (constructor; [vm_compute; intuition discriminate|]). constructor.
Defined.

Lemma located_names_have_no_slash_witness :
  (forall w,
     Some (lit "u") = Some w \/ Some (lit "r") = Some w \/
     Some (lit "feature") = Some w -> ~ In SLASH w) /\
  (Some (lit "feature") = Some (lit "master") \/
   (treeOrBlob (split SLASH (lit "https://github.com/u/r/blob/feature/x/main.go")
                  !! 5%nat) = true /\
    Some (lit "feature") =
      split SLASH (lit "https://github.com/u/r/blob/feature/x/main.go") !! 6%nat)).
Proof.
  apply (located_names_have_no_slash
           (lit "https://github.com/u/r/blob/feature/x/main.go") Samples.goPage
           (mkLocation (Some (lit "u")) (Some (lit "r")) (Some (lit "feature"))
              (Some (lit "x/main.go")) (Some (lit "0123abc")))).
  reflexivity.
Defined.

Lemma located_path_is_the_rest_witness :
  exists first more,
    take 7 (split SLASH (lit "https://github.com/u/r/blob/feature/x/main.go")) =
      first :: more /\
    lit "https://github.com/u/r/blob/feature/x/main.go" =
      joinPath first more ++ SLASH :: lit "x/main.go".
Proof.
  apply (located_path_is_the_rest
           (lit "https://github.com/u/r/blob/feature/x/main.go") Samples.goPage
           (mkLocation (Some (lit "u")) (Some (lit "r")) (Some (lit "feature"))
              (Some (lit "x/main.go")) (Some (lit "0123abc"))));
    reflexivity.
Defined.

(* ------------------------------------------------------------------ *)
(** ** The file name test and the start of a run *)

Section Starting.

Lemma last_snoc (l : list jsstring) x d : List.last (l ++ [x]) d = x.
Proof. apply List.last_last. Qed.

(** X20: the language of a file is what follows the last dot of its name,
    and the whole name when it has no dot: a file called [go] passes the
    test of [mainCall] as [main.go] does, and [main.go.txt] does not. *)
Theorem lastSegment_after_last_dot stem ext :
  ~ In DOT ext ->
  lastSegment (stem ++ DOT :: ext) = ext /\ lastSegment ext = ext.
Proof.
  intros Hext. unfold lastSegment.
  rewrite split_app, (split_free DOT ext) by done.
  split; [apply last_snoc|done].
Qed.

(** X21: [checkFile] passes over the states of the page that show no file
    and runs [mainCall] once, on the first state that shows one; it never
    looks at the page again after that, and does nothing as long as no
    file is shown. *)
Theorem checkFile_first_file waiting doc later net :
  Forall (fun d => fileShown d = false) waiting ->
  (fileShown doc = true ->
   checkFile (waiting ++ doc :: later) net = mainCall doc net) /\
  checkFile waiting net = [].
Proof.
  intros Hwait. induction Hwait as [|d waiting Hd _ IH]; simpl.
  - split; [by intros ->|done].
  - by rewrite Hd.
Qed.

End Starting.

Lemma lastSegment_after_last_dot_witness :
  lastSegment (lit "pkg.main" ++ DOT :: lit "go") = lit "go" /\
  lastSegment (lit "go") = lit "go".
Proof.
  apply (lastSegment_after_last_dot (lit "pkg.main") (lit "go")).
  vm_compute. intuition discriminate.
Defined.

Lemma checkFile_first_file_witness :
  checkFile
    ([mkDocument false None false false None [] false] ++
     Samples.goPage :: [Samples.readmePage]) Samples.allUp =
  mainCall Samples.goPage Samples.allUp.
Proof.
  apply (proj1 (checkFile_first_file
                  [mkDocument false None false false None [] false]
                  Samples.goPage [Samples.readmePage] Samples.allUp
                  ltac:(by repeat constructor))).
  reflexivity.
Defined.
